(** * Verification of the DWARF test fixtures [fibonacci.c] and [c-with-struct.c]

    The two C files under [src/testWorkspace/web/dwarf] are embedded as Rocq
    definitions and the statements of their specification are proved (or
    refuted) against these definitions.

    - [Int]            the C type [int] of the wasm32 target: 32-bit two's
                       complement, arithmetic written with its wrap-around;
    - [Fibonacci]      [fib] and [main] of fibonacci.c;
    - [CWithStruct]    [data_t], [process] and [_start] of c-with-struct.c. *)

From Stdlib Require Import ZArith Lia String Ascii.
From stdpp Require Import base option list gmap pretty.

Local Open Scope Z_scope.

(** ** Outcomes of running C code

    A run either finishes with a value, reads an automatic variable that was
    never assigned, or is cut off by the step budget of the interpreter. *)

Inductive outcome (A : Type) : Type :=
| Done (v : A)
| UninitRead
| OutOfFuel.

Arguments Done {A} v.
Arguments UninitRead {A}.
Arguments OutOfFuel {A}.

#[global] Instance outcome_ret : MRet outcome := fun A v => Done v.

#[global] Instance outcome_bind : MBind outcome := fun A B f m =>
  match m with
  | Done v => f v
  | UninitRead => UninitRead
  | OutOfFuel => OutOfFuel
  end.

(** Reading an automatic variable: [None] is a variable without a value. *)
Definition read {A : Type} (slot : option A) : outcome A :=
  match slot with
  | Some v => Done v
  | None => UninitRead
  end.

(** ** The type [int] *)

Module Int.

Definition bits : Z := 32.
Definition modulus : Z := 2 ^ bits.
Definition min_signed : Z := - 2 ^ (bits - 1).
Definition max_signed : Z := 2 ^ (bits - 1) - 1.

Definition in_range (z : Z) : Prop := min_signed <= z <= max_signed.

(** Reduction of a mathematical integer to the signed 32-bit range. *)
Definition wrap (z : Z) : Z := (z - min_signed) mod modulus + min_signed.

(** [x + y] on [int]. *)
Definition add (x y : Z) : Z := wrap (x + y).

(** [x < y] on [int]. *)
Definition lt (x y : Z) : bool := x <? y.

End Int.

(** ** fibonacci.c *)

Module Fibonacci.

(** The automatic variables of [fib]: [int a, b = 0, c = 1;] and the loop
    counter [int i].  [a] has no initialiser. *)
Record locals : Type := Locals {
  a : option Z;
  b : Z;
  c : Z;
  i : Z
}.

(** [int a, b = 0, c = 1;] followed by the loop initialiser [int i = 1]. *)
Definition fib_entry : locals :=
  {| a := None; b := 0; c := 1; i := 1 |}.

(** The loop body [a = b; b = c; c = a + b;]. *)
Definition fib_body (s : locals) : outcome locals :=
  let s1 := {| a := Some (b s); b := b s; c := c s; i := i s |} in
  let s2 := {| a := a s1; b := c s1; c := c s1; i := i s1 |} in
  va ← read (a s2);
  mret {| a := a s2; b := b s2; c := Int.add va (b s2); i := i s2 |}.

(** The loop increment [++i]. *)
Definition fib_incr (s : locals) : locals :=
  {| a := a s; b := b s; c := c s; i := Int.add (i s) 1 |}.

(** [for (...; i < n; ++i) { body }]; [fuel] bounds the number of times
    the body may run. *)
Fixpoint fib_loop (fuel : nat) (n : Z) (s : locals) : outcome locals :=
  if Int.lt (i s) n then
    match fuel with
    | O => OutOfFuel
    | S fuel' => s' ← fib_body s; fib_loop fuel' n (fib_incr s')
    end
  else Done s.

(** [int fib(int n)] with a budget of loop iterations: the final state of
    the locals is kept next to the returned [c]. *)
Definition fib_run (fuel : nat) (n : Z) : outcome (Z * locals) :=
  s ← fib_loop fuel n fib_entry;
  mret (c s, s).

Definition fib_fuel (fuel : nat) (n : Z) : outcome Z :=
  r ← fib_run fuel n;
  mret (fst r).

(** [int fib(int n)]: a budget of [n] iterations is never exhausted
    (lemma [fib_fuel_value] below). *)
Definition fib (n : Z) : outcome Z := fib_fuel (Z.to_nat n) n.

(** One pass of the loop, body then increment, for the passes in which the
    counter does not wrap (lemma [fib_loop_passes] relates it to
    [fib_loop]). *)
Definition pass (s : locals) : locals :=
  {| a := Some (b s); b := c s; c := Int.add (b s) (c s); i := i s + 1 |}.

(** The line feed written as [\n] in the C string literals. *)
Definition nl : string := String "010"%char EmptyString.

(** Modelled from the spec: [printf] of <stdio.h>, which the repository
    uses and does not contain; the specification gives the lines it writes
    as [9th fib: <value>].  The format is copied to the output and each [%d]
    is replaced by the decimal rendering of the next [int] argument (a minus
    sign for negative values, no padding). *)
Fixpoint format (fmt : string) (args : list Z) : string :=
  match fmt with
  | EmptyString => EmptyString
  | String "%" (String "d" rest) =>
      match args with
      | v :: args' => pretty v +:+ format rest args'
      | [] => format rest []
      end
  | String ch rest => String ch (format rest args)
  end.

(** [printf(fmt, args...)] appends to the standard output [out]. *)
Definition printf (out : string) (fmt : string) (args : list Z) : string :=
  out +:+ format fmt args.

(** [int main()]: the state threaded through is the text written to the
    standard output so far; the result pairs the exit status with it. *)
Definition main (out : string) : outcome (Z * string) :=
  a ← fib 9;
  let out := printf out ("9th fib: %d" +:+ nl) [a] in
  b ← fib 5;
  let out := printf out ("5th fib: %d" +:+ nl) [b] in
  mret (0, out).

(** The lines of a text: the pieces ended by a line feed, and what is left
    after the last line feed when that is not empty. *)
Fixpoint lines_from (cur : string) (s : string) : list string :=
  match s with
  | EmptyString =>
      match cur with EmptyString => [] | _ => [String.rev cur] end
  | String ch rest =>
      if Ascii.eqb ch "010"%char then String.rev cur :: lines_from EmptyString rest
      else lines_from (String ch cur) rest
  end.

Definition lines (s : string) : list string := lines_from EmptyString s.

(** The locals at the entry of [fib] when the slot of [a], which has no
    initialiser, holds [g]: [None] for the strict reading in which it has no
    value, [Some v] for whatever value [v] a run finds in the slot. *)
Definition fib_entry_with (g : option Z) : locals :=
  {| a := g; b := 0; c := 1; i := 1 |}.

(** [int fib(int n)] run from such an entry. *)
Definition fib_with (g : option Z) (fuel : nat) (n : Z) : outcome Z :=
  s ← fib_loop fuel n (fib_entry_with g);
  mret (c s).

End Fibonacci.

(** ** Sequences given by two first terms and the Fibonacci recurrence *)

Module Recurrence.

(** [terms f1 f2 j] is the pair of the terms number [j+1] and [j+2] of the
    sequence with f(1) = [f1], f(2) = [f2], f(k) = f(k-1) + f(k-2). *)
Fixpoint terms (f1 f2 : Z) (j : nat) : Z * Z :=
  match j with
  | O => (f1, f2)
  | S j' => let '(u, v) := terms f1 f2 j' in (v, u + v)
  end.

(** Term number [k] (counted from 1). *)
Definition nth_term (f1 f2 : Z) (k : Z) : Z :=
  fst (terms f1 f2 (Z.to_nat (k - 1))).

(** The sequence in the words of the specification:
    f(1)=0, f(2)=1, f(k)=f(k-1)+f(k-2). *)
Definition spec_seq (k : Z) : Z := nth_term 0 1 k.

(** The usual Fibonacci numbering 1, 1, 2, 3, 5, ...:
    f(1)=1, f(2)=1, f(k)=f(k-1)+f(k-2). *)
Definition unit_seq (k : Z) : Z := nth_term 1 1 k.

End Recurrence.

(** ** c-with-struct.c *)

Module CWithStruct.

(** The bytes of a string literal, without its terminator. *)
Fixpoint literal_bytes (s : string) : list Z :=
  match s with
  | EmptyString => []
  | String ch rest => Z.of_N (N_of_ascii ch) :: literal_bytes rest
  end.

(** Initialisation of [char buf[size]] from a string literal: the bytes of
    the literal in order, the remaining elements set to zero (the first of
    them is the terminator), nothing stored beyond [size]. *)
Definition char_array (size : nat) (lit : string) : list Z :=
  take size (literal_bytes lit ++ replicate (size - String.length lit) 0).

(** [typedef struct data_t { char id[12]; int x; int y; } data_t;] *)
Record data_t : Type := Data {
  id : list Z;
  x : Z;
  y : Z
}.

(** Layout of [data_t] on wasm32: [id] at offset 0, [x] at 12, [y] at 16. *)
Definition id_size : nat := 12.
Definition offset_id : Z := 0.
Definition offset_x : Z := 12.
Definition offset_y : Z := 16.
Definition sizeof_data_t : Z := 20.

(** The four bytes of an [int], least significant first. *)
Definition int_bytes (v : Z) : list Z :=
  [ Z.land v 255;
    Z.land (Z.shiftr v 8) 255;
    Z.land (Z.shiftr v 16) 255;
    Z.land (Z.shiftr v 24) 255 ].

(** Linear memory: byte values by address.  An address without an entry
    holds no defined value. *)
Fixpoint store_bytes (m : gmap Z Z) (addr : Z) (bs : list Z) : gmap Z Z :=
  match bs with
  | [] => m
  | v :: bs' => store_bytes (<[addr := v]> m) (addr + 1) bs'
  end.

Fixpoint load_bytes (m : gmap Z Z) (addr : Z) (len : nat) : option (list Z) :=
  match len with
  | O => Some []
  | S len' =>
      v ← m !! addr;
      vs ← load_bytes m (addr + 1) len';
      Some (v :: vs)
  end.

Definition store_data_t (m : gmap Z Z) (addr : Z) (d : data_t) : gmap Z Z :=
  let m := store_bytes m (addr + offset_id) (id d) in
  let m := store_bytes m (addr + offset_x) (int_bytes (x d)) in
  store_bytes m (addr + offset_y) (int_bytes (y d)).

(** [int process(void *data) { return 0; }]: the result and the memory
    after the call. *)
Definition process (m : gmap Z Z) (data : Z) : Z * gmap Z Z := (0, m).

(** The initialiser [{ .id = "Hello world", .x = 12, .y = 34 }]. *)
Definition start_data : data_t :=
  {| id := char_array id_size "Hello world"; x := 12; y := 34 |}.

(** [int _start()]: [frame] is the address of the automatic variable
    [data]. *)
Definition _start (m : gmap Z Z) (frame : Z) : Z * gmap Z Z :=
  let data := start_data in
  let m := store_data_t m frame data in
  process m frame.

(** The [int] held by four bytes, least significant first. *)
Definition int_of_bytes (bs : list Z) : option Z :=
  match bs with
  | [b0; b1; b2; b3] =>
      Some (Int.wrap (b0 + b1 * 2 ^ 8 + b2 * 2 ^ 16 + b3 * 2 ^ 24))
  | _ => None
  end.

Definition load_int (m : gmap Z Z) (addr : Z) : option Z :=
  bs ← load_bytes m addr 4;
  int_of_bytes bs.

(** Reading the record a [data_t] pointer refers to, as the expression
    evaluated at the breakpoint in [process] does. *)
Definition load_data_t (m : gmap Z Z) (addr : Z) : option data_t :=
  bs ← load_bytes m (addr + offset_id) id_size;
  vx ← load_int m (addr + offset_x);
  vy ← load_int m (addr + offset_y);
  Some {| id := bs; x := vx; y := vy |}.

End CWithStruct.

(** * Proofs *)

(** ** Arithmetic of [int] *)

Module IntFacts.
Import Int.

Lemma modulus_eq : modulus = 4294967296.
Proof. reflexivity. Qed.

Lemma min_signed_eq : min_signed = -2147483648.
Proof. reflexivity. Qed.

Lemma max_signed_eq : max_signed = 2147483647.
Proof. reflexivity. Qed.

Lemma wrap_range z : in_range (wrap z).
Proof.
  unfold in_range, wrap. rewrite max_signed_eq, min_signed_eq, modulus_eq.
  pose proof (Z.mod_pos_bound (z - -2147483648) 4294967296). lia.
Qed.

Lemma wrap_id z : in_range z -> wrap z = z.
Proof.
  unfold in_range, wrap. rewrite max_signed_eq, min_signed_eq, modulus_eq.
  intros Hz. rewrite Z.mod_small; lia.
Qed.

Lemma wrap_wrap_add x y : wrap (wrap x + wrap y) = wrap (x + y).
Proof.
  unfold wrap. f_equal.
  replace ((x - min_signed) mod modulus + min_signed
           + ((y - min_signed) mod modulus + min_signed) - min_signed)
    with ((x - min_signed) mod modulus
          + ((y - min_signed) mod modulus + min_signed)) by lia.
  rewrite Zplus_mod_idemp_l.
  replace (x - min_signed + ((y - min_signed) mod modulus + min_signed))
    with ((y - min_signed) mod modulus + x) by lia.
  rewrite Zplus_mod_idemp_l. f_equal. lia.
Qed.

Lemma add_wrap x y : add (wrap x) (wrap y) = wrap (x + y).
Proof. apply wrap_wrap_add. Qed.

Lemma add_exact x y : in_range (x + y) -> add x y = x + y.
Proof. apply wrap_id. Qed.

End IntFacts.

(** ** The recurrence *)

Module RecurrenceFacts.
Import Recurrence.

Lemma terms_succ f1 f2 j :
  terms f1 f2 (S j) = (snd (terms f1 f2 j), fst (terms f1 f2 j) + snd (terms f1 f2 j)).
Proof. simpl. destruct (terms f1 f2 j); reflexivity. Qed.

(** Dropping the first term of a sequence. *)
Lemma terms_shift f1 f2 j : terms f1 f2 (S j) = terms f2 (f1 + f2) j.
Proof.
  induction j as [|j IH]; [reflexivity|].
  rewrite terms_succ, IH, terms_succ. reflexivity.
Qed.

Lemma snd_terms f1 f2 j : snd (terms f1 f2 j) = fst (terms f1 f2 (S j)).
Proof. rewrite terms_succ. reflexivity. Qed.

Lemma nth_term_1 f1 f2 : nth_term f1 f2 1 = f1.
Proof. reflexivity. Qed.

Lemma nth_term_2 f1 f2 : nth_term f1 f2 2 = f2.
Proof. reflexivity. Qed.

Lemma nth_term_rec f1 f2 k :
  3 <= k -> nth_term f1 f2 k = nth_term f1 f2 (k - 1) + nth_term f1 f2 (k - 2).
Proof.
  intros Hk. unfold nth_term.
  replace (Z.to_nat (k - 1)) with (S (S (Z.to_nat (k - 2 - 1)))) by lia.
  replace (Z.to_nat (k - 1 - 1)) with (S (Z.to_nat (k - 2 - 1))) by lia.
  rewrite !terms_succ. simpl. lia.
Qed.

(** The usual numbering is the specification's sequence moved by one. *)
Lemma unit_seq_spec_seq k : 1 <= k -> unit_seq k = spec_seq (k + 1).
Proof.
  intros Hk. unfold unit_seq, spec_seq, nth_term.
  replace (Z.to_nat (k + 1 - 1)) with (S (Z.to_nat (k - 1))) by lia.
  rewrite terms_shift. reflexivity.
Qed.

Lemma terms_unit_mono j :
  0 < fst (terms 1 1 j) <= snd (terms 1 1 j).
Proof.
  induction j as [|j IH]; [simpl; lia|].
  rewrite terms_succ. simpl. lia.
Qed.

Lemma unit_seq_pos k : 0 < unit_seq k.
Proof. unfold unit_seq, nth_term. apply terms_unit_mono. Qed.

Lemma terms_unit_le j1 j2 :
  (j1 <= j2)%nat -> fst (terms 1 1 j1) <= fst (terms 1 1 j2).
Proof.
  induction 1 as [|j2 _ IH]; [lia|].
  rewrite terms_succ. simpl. pose proof (terms_unit_mono j2). lia.
Qed.

Lemma unit_seq_mono k1 k2 : k1 <= k2 -> unit_seq k1 <= unit_seq k2.
Proof. intros H. unfold unit_seq, nth_term. apply terms_unit_le. lia. Qed.

Lemma unit_seq_46 : unit_seq 46 = 1836311903.
Proof. vm_compute. reflexivity. Qed.

Lemma unit_seq_47 : unit_seq 47 = 2971215073.
Proof. vm_compute. reflexivity. Qed.

(** The terms that fit in an [int] are exactly the first 46. *)
Lemma unit_seq_in_range k : 1 <= k -> (Int.in_range (unit_seq k) <-> k <= 46).
Proof.
  intros Hk. unfold Int.in_range.
  rewrite IntFacts.min_signed_eq, IntFacts.max_signed_eq. split.
  - intros [_ Hhi]. destruct (Z_le_gt_dec k 46) as [|Hgt]; [assumption|].
    pose proof (unit_seq_mono 47 k ltac:(lia)) as Hm.
    rewrite unit_seq_47 in Hm. lia.
  - intros Hle. pose proof (unit_seq_pos k).
    pose proof (unit_seq_mono k 46 Hle) as Hm.
    rewrite unit_seq_46 in Hm. lia.
Qed.

End RecurrenceFacts.

(** ** The loop of [fib] *)

Module FibonacciFacts.
Import Fibonacci Recurrence.

Lemma fib_body_done s :
  fib_body s =
  Done {| a := Some (b s); b := c s; c := Int.add (b s) (c s); i := i s |}.
Proof. reflexivity. Qed.

Lemma fib_loop_exit fuel n s : n <= i s -> fib_loop fuel n s = Done s.
Proof.
  intros H. destruct fuel; simpl; unfold Int.lt;
    destruct (Z.ltb_spec (i s) n); (lia || reflexivity).
Qed.

Lemma fib_loop_enter fuel n s :
  i s < n ->
  fib_loop (S fuel) n s =
  fib_loop fuel n
    {| a := Some (b s); b := c s; c := Int.add (b s) (c s);
       i := Int.add (i s) 1 |}.
Proof.
  intros H. simpl. unfold Int.lt.
  destruct (Z.ltb_spec (i s) n); [reflexivity | lia].
Qed.

Lemma fib_loop_starved n s : i s < n -> fib_loop 0 n s = OutOfFuel.
Proof.
  intros H. simpl. unfold Int.lt.
  destruct (Z.ltb_spec (i s) n); [reflexivity | lia].
Qed.

(** With a budget that covers the [n - i] remaining passes the loop ends
    in the state reached by exactly that many passes. *)
Lemma fib_loop_passes fuel : forall n s,
  n <= Int.max_signed -> Int.min_signed <= i s ->
  (Z.to_nat (n - i s) <= fuel)%nat ->
  fib_loop fuel n s = Done (Nat.iter (Z.to_nat (n - i s)) pass s).
Proof.
  induction fuel as [|fuel IH]; intros n s Hn Hi Hfuel.
  - rewrite fib_loop_exit by lia.
    replace (Z.to_nat (n - i s)) with O by lia. reflexivity.
  - destruct (Z_lt_le_dec (i s) n) as [Hlt|Hge].
    + rewrite fib_loop_enter by assumption.
      assert (Int.add (i s) 1 = i s + 1) as ->.
      { apply IntFacts.add_exact. unfold Int.in_range. lia. }
      rewrite IH by (cbn [i]; lia). cbn [i].
      replace (Z.to_nat (n - i s)) with (S (Z.to_nat (n - (i s + 1)))) by lia.
      rewrite Nat.iter_succ_r. reflexivity.
    + rewrite fib_loop_exit by lia.
      replace (Z.to_nat (n - i s)) with O by lia. reflexivity.
Qed.

(** With a smaller budget the loop is cut off. *)
Lemma fib_loop_cut fuel : forall n s,
  n <= Int.max_signed -> Int.min_signed <= i s ->
  (fuel < Z.to_nat (n - i s))%nat ->
  fib_loop fuel n s = OutOfFuel.
Proof.
  induction fuel as [|fuel IH]; intros n s Hn Hi Hfuel.
  - apply fib_loop_starved. lia.
  - rewrite fib_loop_enter by lia.
    assert (Int.add (i s) 1 = i s + 1) as ->.
    { apply IntFacts.add_exact. unfold Int.in_range. lia. }
    apply IH; cbn [i]; lia.
Qed.

(** The locals after [j] passes from the entry of [fib]: [b] and [c] are
    two neighbouring terms of the sequence 0, 1, 1, 2, 3, ... reduced to
    [int], and [a] has a value as soon as one pass was made. *)
Lemma passes_entry j :
  let s := Nat.iter j pass fib_entry in
  b s = Int.wrap (fst (terms 0 1 j)) /\
  c s = Int.wrap (snd (terms 0 1 j)) /\
  i s = 1 + Z.of_nat j /\
  (a s = None <-> j = O).
Proof.
  induction j as [|j (Hb & Hc & Hi & Ha)]; simpl.
  - repeat split; intros; reflexivity || discriminate.
  - rewrite Hb, Hc, Hi, IntFacts.add_wrap.
    destruct (terms 0 1 j) as [u v]; simpl.
    repeat split; [lia | discriminate | discriminate].
Qed.

Lemma fib_entry_min : Int.min_signed <= i fib_entry.
Proof. rewrite IntFacts.min_signed_eq. simpl. lia. Qed.

(** The run of [fib] under a sufficient budget. *)
Lemma fib_run_passes fuel n :
  n <= Int.max_signed -> (Z.to_nat (n - 1) <= fuel)%nat ->
  fib_run fuel n =
  Done (Int.wrap (unit_seq (Z.max n 1)),
        Nat.iter (Z.to_nat (n - 1)) pass fib_entry).
Proof.
  intros Hn Hfuel. unfold fib_run.
  rewrite fib_loop_passes by (auto using fib_entry_min).
  change (i fib_entry) with 1.
  destruct (passes_entry (Z.to_nat (n - 1))) as (_ & Hc & _).
  cbv zeta in Hc. cbn [mbind outcome_bind mret outcome_ret]. rewrite Hc.
  do 3 f_equal. unfold unit_seq, nth_term.
  replace (Z.to_nat (Z.max n 1 - 1)) with (Z.to_nat (n - 1)) by lia.
  rewrite RecurrenceFacts.snd_terms, RecurrenceFacts.terms_shift.
  reflexivity.
Qed.

Lemma fib_fuel_value fuel n :
  n <= Int.max_signed -> (Z.to_nat (n - 1) <= fuel)%nat ->
  fib_fuel fuel n = Done (Int.wrap (unit_seq (Z.max n 1))).
Proof.
  intros Hn Hfuel. unfold fib_fuel. rewrite fib_run_passes by assumption.
  reflexivity.
Qed.

Lemma fib_fuel_cut fuel n :
  n <= Int.max_signed -> (fuel < Z.to_nat (n - 1))%nat ->
  fib_fuel fuel n = OutOfFuel.
Proof.
  intros Hn Hfuel. unfold fib_fuel, fib_run.
  rewrite fib_loop_cut; auto using fib_entry_min.
Qed.

Lemma fib_value n :
  n <= Int.max_signed -> fib n = Done (Int.wrap (unit_seq (Z.max n 1))).
Proof. intros Hn. apply fib_fuel_value; [assumption | lia]. Qed.

(** Without overflow: the arguments 1 to 46. *)
Lemma fib_exact n : 1 <= n <= 46 -> fib n = Done (unit_seq n).
Proof.
  intros Hn. rewrite fib_value by (rewrite IntFacts.max_signed_eq; lia).
  rewrite Z.max_l by lia. rewrite IntFacts.wrap_id; [reflexivity|].
  apply RecurrenceFacts.unit_seq_in_range; lia.
Qed.

End FibonacciFacts.

(** ** Budget independence of the loop *)

Module FibonacciFuel.
Import Fibonacci.

(** A run that finished under some budget finishes in the same state
    under every larger one. *)
Lemma fib_loop_mono fuel : forall n s r,
  fib_loop fuel n s = Done r ->
  forall fuel', (fuel <= fuel')%nat -> fib_loop fuel' n s = Done r.
Proof.
  induction fuel as [|fuel IH]; intros n s r Hrun fuel' Hle.
  - simpl in Hrun. destruct (Int.lt (i s) n) eqn:Hlt; [discriminate|].
    destruct fuel'; simpl; rewrite Hlt; assumption.
  - destruct fuel' as [|fuel']; [lia|].
    cbn [fib_loop] in Hrun |- *. destruct (Int.lt (i s) n); [|assumption].
    rewrite FibonacciFacts.fib_body_done in Hrun |- *.
    cbn [mbind outcome_bind] in Hrun |- *.
    eapply IH; [eassumption | lia].
Qed.

Lemma fib_loop_agree fuel1 fuel2 n s r1 r2 :
  fib_loop fuel1 n s = Done r1 -> fib_loop fuel2 n s = Done r2 -> r1 = r2.
Proof.
  intros H1 H2.
  pose proof (fib_loop_mono _ _ _ _ H1 (Nat.max fuel1 fuel2) ltac:(lia)) as E1.
  pose proof (fib_loop_mono _ _ _ _ H2 (Nat.max fuel1 fuel2) ltac:(lia)) as E2.
  congruence.
Qed.

Lemma fib_fuel_agree fuel1 fuel2 n v1 v2 :
  fib_fuel fuel1 n = Done v1 -> fib_fuel fuel2 n = Done v2 -> v1 = v2.
Proof.
  unfold fib_fuel, fib_run. intros H1 H2.
  destruct (fib_loop fuel1 n fib_entry) as [r1| |] eqn:E1; try discriminate.
  destruct (fib_loop fuel2 n fib_entry) as [r2| |] eqn:E2; try discriminate.
  rewrite (fib_loop_agree _ _ _ _ _ _ E1 E2) in H1.
  cbn in H1, H2. congruence.
Qed.

End FibonacciFuel.

(** ** Text *)

Module TextFacts.

Lemma append_assoc (s1 s2 s3 : string) :
  (s1 +:+ s2) +:+ s3 = s1 +:+ (s2 +:+ s3).
Proof.
  induction s1 as [|ch s1 IH]; [reflexivity|].
  change (String ch ((s1 +:+ s2) +:+ s3) = String ch (s1 +:+ (s2 +:+ s3))).
  f_equal. exact IH.
Qed.

End TextFacts.

(** * The statements of the specification *)

(** ** fibonacci.c *)

Module FibonacciSpec.
Import Fibonacci Recurrence.

Lemma fib_9 : fib 9 = Done 34.
Proof. vm_compute. reflexivity. Qed.

Lemma fib_5 : fib 5 = Done 5.
Proof. vm_compute. reflexivity. Qed.

Lemma main_text out :
  main out =
  Done (0, out +:+ ("9th fib: " +:+ pretty 34 +:+ nl)
               +:+ ("5th fib: " +:+ pretty 5 +:+ nl)).
Proof.
  unfold main. rewrite fib_9, fib_5.
  cbn [mbind outcome_bind mret outcome_ret]. unfold printf.
  rewrite TextFacts.append_assoc. reflexivity.
Qed.

(** The first results of [fib], and the first argument whose result does
    not fit in an [int]. *)
Example fib_first_results :
  map fib [1; 2; 3; 4; 5; 6; 7; 8; 9; 10]
  = map Done [1; 1; 2; 3; 5; 8; 13; 21; 34; 55].
Proof. vm_compute. reflexivity. Qed.

Example fib_47_wraps : fib 46 = Done 1836311903 /\ fib 47 = Done (-1323752223).
Proof. split; vm_compute; reflexivity. Qed.

Example spec_seq_first_terms :
  map spec_seq [1; 2; 3; 4; 5; 6; 7; 8; 9; 10] = [0; 1; 1; 2; 3; 5; 8; 13; 21; 34].
Proof. vm_compute. reflexivity. Qed.

(** C1, as the specification words it: [fib] gives 21 for 9 and 3 for 5.
    The code gives neither. *)
Lemma fib_9_is_not_21 : ~ (fib 9 = Done 21 /\ fib 5 = Done 3).
Proof. intros [H9 _]. rewrite fib_9 in H9. discriminate. Qed.

(** C1, amended: [fib] gives 34 for 9 and 5 for 5, the terms number 9 and
    5 of the sequence that starts f(1)=1, f(2)=1, and these are the two
    values [main] prints. *)
Theorem fib_9_is_34 :
  fib 9 = Done 34 /\ fib 5 = Done 5 /\
  unit_seq 9 = 34 /\ unit_seq 5 = 5 /\
  forall out,
    main out =
    Done (0, out +:+ ("9th fib: 34" +:+ nl) +:+ ("5th fib: 5" +:+ nl)).
Proof.
  repeat split; try (vm_compute; reflexivity).
  intros out. apply main_text.
Qed.

(** C2, as the specification words it: [fib n] is term [n] of the sequence
    f(1)=0, f(2)=1.  Already the first term differs. *)
Lemma fib_1_is_not_0 :
  0 <= 1 /\ spec_seq 1 = 0 /\ fib 1 = Done 1 /\ fib 1 <> Done (spec_seq 1).
Proof.
  repeat split; try (vm_compute; reflexivity); try lia.
  vm_compute. discriminate.
Qed.

(** C2, amended: for every [int] n >= 1, [fib n] is term [n] of the
    sequence f(1)=1, f(2)=1, f(k)=f(k-1)+f(k-2), which is term [n+1] of
    the specification's sequence, reduced to the range of [int]; it is the
    term itself exactly when n <= 46.  In particular fib(1)=1 and
    fib(2)=1. *)
Theorem fib_nth_term n :
  1 <= n <= Int.max_signed ->
  fib n = Done (Int.wrap (unit_seq n)) /\
  (n <= 46 <-> fib n = Done (unit_seq n)) /\
  unit_seq n = spec_seq (n + 1) /\
  fib 1 = Done 1 /\ fib 2 = Done 1.
Proof.
  intros [Hlo Hhi].
  assert (fib n = Done (Int.wrap (unit_seq n))) as Hfib.
  { rewrite FibonacciFacts.fib_value by assumption. now rewrite Z.max_l. }
  split; [exact Hfib|]. split; [|split; [|split]].
  - rewrite <- RecurrenceFacts.unit_seq_in_range by assumption. split.
    + intros Hr. rewrite Hfib, IntFacts.wrap_id by assumption. reflexivity.
    + intros He. rewrite Hfib in He. injection He as He.
      rewrite <- He. apply IntFacts.wrap_range.
  - apply RecurrenceFacts.unit_seq_spec_seq. assumption.
  - vm_compute. reflexivity.
  - vm_compute. reflexivity.
Qed.

Lemma fib_nth_term_witness :
  1 <= 47 <= Int.max_signed /\
  fib 47 = Done (Int.wrap (unit_seq 47)) /\
  (47 <= 46 <-> fib 47 = Done (unit_seq 47)) /\
  unit_seq 47 = spec_seq (47 + 1) /\
  fib 1 = Done 1 /\ fib 2 = Done 1.
Proof.
  assert (1 <= 47 <= Int.max_signed) as H by (vm_compute; split; discriminate).
  split; [exact H | exact (fib_nth_term 47 H)].
Defined.

(** C4: for every [int] k >= 3 the results of [fib] satisfy
    fib(k) = fib(k-1) + fib(k-2), with the addition of [int]; the sum is
    the mathematical one as long as it is in the range of [int], which is
    the case for k <= 46. *)
Theorem fib_recurrence k :
  3 <= k <= Int.max_signed ->
  exists v v1 v2,
    fib k = Done v /\ fib (k - 1) = Done v1 /\ fib (k - 2) = Done v2 /\
    v = Int.add v1 v2 /\
    (Int.in_range (v1 + v2) -> v = v1 + v2) /\
    (k <= 46 -> v = v1 + v2).
Proof.
  intros [Hlo Hhi].
  exists (Int.wrap (unit_seq k)), (Int.wrap (unit_seq (k - 1))),
    (Int.wrap (unit_seq (k - 2))).
  assert (Int.wrap (unit_seq k)
          = Int.add (Int.wrap (unit_seq (k - 1))) (Int.wrap (unit_seq (k - 2))))
    as Hadd.
  { rewrite IntFacts.add_wrap. f_equal.
    apply RecurrenceFacts.nth_term_rec. assumption. }
  split; [|split; [|split; [|split; [|split]]]].
  - rewrite FibonacciFacts.fib_value by assumption. now rewrite Z.max_l by lia.
  - rewrite FibonacciFacts.fib_value by lia. now rewrite Z.max_l by lia.
  - rewrite FibonacciFacts.fib_value by lia. now rewrite Z.max_l by lia.
  - exact Hadd.
  - intros Hr. rewrite Hadd. apply IntFacts.add_exact. assumption.
  - intros H46. rewrite Hadd. apply IntFacts.add_exact.
    rewrite !IntFacts.wrap_id
      by (apply RecurrenceFacts.unit_seq_in_range; lia).
    change (unit_seq (k - 1) + unit_seq (k - 2))
      with (nth_term 1 1 (k - 1) + nth_term 1 1 (k - 2)).
    rewrite <- RecurrenceFacts.nth_term_rec by assumption.
    apply RecurrenceFacts.unit_seq_in_range; lia.
Qed.

Lemma fib_recurrence_witness :
  3 <= 9 <= Int.max_signed /\
  exists v v1 v2,
    fib 9 = Done v /\ fib (9 - 1) = Done v1 /\ fib (9 - 2) = Done v2 /\
    v = Int.add v1 v2 /\
    (Int.in_range (v1 + v2) -> v = v1 + v2) /\
    (9 <= 46 -> v = v1 + v2).
Proof.
  assert (3 <= 9 <= Int.max_signed) as H by (vm_compute; split; discriminate).
  split; [exact H | exact (fib_recurrence 9 H)].
Defined.

(** C6: a run of [main] appends exactly two lines to the standard output,
    [9th fib: <value>] and [5th fib: <value>], where the values are the
    decimal renderings of the results of [fib 9] and [fib 5], and returns
    0. *)
Theorem main_two_lines out :
  exists v9 v5 text,
    fib 9 = Done v9 /\ fib 5 = Done v5 /\
    main out = Done (0, out +:+ text) /\
    text = ("9th fib: " +:+ pretty v9 +:+ nl)
           +:+ ("5th fib: " +:+ pretty v5 +:+ nl) /\
    lines text = ["9th fib: " +:+ pretty v9; "5th fib: " +:+ pretty v5].
Proof.
  exists 34, 5. eexists. split; [apply fib_9|]. split; [apply fib_5|].
  split; [apply main_text|]. split; [|vm_compute]; reflexivity.
Qed.

(** C7: [fib] has no error condition.  For every [int] n, negative and
    zero included, the run ends normally with an [int]; no budget makes it
    read a variable without a value. *)
Theorem fib_no_failure n :
  Int.in_range n ->
  (exists v, fib n = Done v /\ Int.in_range v) /\
  (forall fuel, fib_fuel fuel n <> UninitRead).
Proof.
  intros [_ Hhi]. split.
  - eexists. split; [apply FibonacciFacts.fib_value; assumption|].
    apply IntFacts.wrap_range.
  - intros fuel. destruct (le_lt_dec (Z.to_nat (n - 1)) fuel) as [Hle|Hlt].
    + rewrite FibonacciFacts.fib_fuel_value by assumption. discriminate.
    + rewrite FibonacciFacts.fib_fuel_cut by assumption. discriminate.
Qed.

Lemma fib_no_failure_witness :
  Int.in_range (-7) /\
  (exists v, fib (-7) = Done v /\ Int.in_range v) /\
  (forall fuel, fib_fuel fuel (-7) <> UninitRead).
Proof.
  assert (Int.in_range (-7)) as H by (vm_compute; split; discriminate).
  split; [exact H | exact (fib_no_failure (-7) H)].
Defined.

(** C8: [fib] terminates on every [int] n.  The loop makes exactly
    max(n-1, 0) passes: every budget of at least that many passes gives
    the same result and final locals, a smaller one is exhausted, and the
    counter ends at max(n, 1). *)
Theorem fib_terminates n :
  Int.in_range n ->
  exists v s,
    (forall fuel, (Z.to_nat (n - 1) <= fuel)%nat ->
                  fib_run fuel n = Done (v, s)) /\
    (forall fuel, (fuel < Z.to_nat (n - 1))%nat ->
                  fib_run fuel n = OutOfFuel) /\
    i s = Z.max n 1.
Proof.
  intros [_ Hhi]. do 2 eexists. split; [|split].
  - intros fuel Hfuel. apply FibonacciFacts.fib_run_passes; assumption.
  - intros fuel Hfuel. unfold fib_run.
    rewrite FibonacciFacts.fib_loop_cut;
      auto using FibonacciFacts.fib_entry_min.
  - destruct (FibonacciFacts.passes_entry (Z.to_nat (n - 1)))
      as (_ & _ & Hi & _).
    cbv zeta in Hi. rewrite Hi. lia.
Qed.

Lemma fib_terminates_witness :
  Int.in_range 9 /\
  exists v s,
    (forall fuel, (Z.to_nat (9 - 1) <= fuel)%nat ->
                  fib_run fuel 9 = Done (v, s)) /\
    (forall fuel, (fuel < Z.to_nat (9 - 1))%nat ->
                  fib_run fuel 9 = OutOfFuel) /\
    i s = Z.max 9 1.
Proof.
  assert (Int.in_range 9) as H by (vm_compute; split; discriminate).
  split; [exact H | exact (fib_terminates 9 H)].
Defined.

(** C10: for every n <= 1 the loop body is not run and [fib] returns 1.
    Whatever the budget, a budget of no pass at all included, the run ends
    with the locals as they were at entry, [a] still without a value and
    never read. *)
Theorem fib_at_most_1 n :
  n <= 1 ->
  forall fuel,
    fib_run fuel n = Done (1, fib_entry) /\
    fib_fuel fuel n = Done 1 /\
    fib n = Done 1 /\
    a fib_entry = None.
Proof.
  intros Hn.
  assert (forall fuel, fib_run fuel n = Done (1, fib_entry)) as Hrun.
  { intros fuel. unfold fib_run.
    rewrite FibonacciFacts.fib_loop_exit by (simpl; lia). reflexivity. }
  intros fuel. split; [apply Hrun|]. split; [|split; [|reflexivity]].
  - unfold fib_fuel. rewrite Hrun. reflexivity.
  - unfold fib, fib_fuel. rewrite Hrun. reflexivity.
Qed.

Lemma fib_at_most_1_witness :
  0 <= 1 /\
  forall fuel,
    fib_run fuel 0 = Done (1, fib_entry) /\
    fib_fuel fuel 0 = Done 1 /\
    fib 0 = Done 1 /\
    a fib_entry = None.
Proof.
  assert (0 <= 1) as H by lia.
  split; [exact H | exact (fib_at_most_1 0 H)].
Defined.

End FibonacciSpec.

(** ** Memory and character arrays *)

Module CWithStructFacts.
Import CWithStruct.

Lemma literal_bytes_length lit :
  length (literal_bytes lit) = String.length lit.
Proof. induction lit as [|ch lit IH]; simpl; [reflexivity | now f_equal]. Qed.

(** A literal one shorter than the array fills it together with its
    terminator. *)
Lemma char_array_exact size lit :
  S (String.length lit) = size ->
  char_array size lit = literal_bytes lit ++ [0].
Proof.
  intros <-. unfold char_array.
  replace (S (String.length lit) - String.length lit)%nat with 1%nat by lia.
  apply take_ge. rewrite length_app, literal_bytes_length. simpl. lia.
Qed.

Lemma char_array_length size lit : length (char_array size lit) = size.
Proof.
  unfold char_array.
  rewrite length_take, length_app, length_replicate, literal_bytes_length.
  lia.
Qed.

Lemma store_bytes_outside bs : forall (m : gmap Z Z) addr p,
  p < addr \/ addr + Z.of_nat (length bs) <= p ->
  store_bytes m addr bs !! p = m !! p.
Proof.
  induction bs as [|v bs IH]; intros m addr p Hp; simpl; [reflexivity|].
  rewrite IH by (simpl in Hp; lia).
  apply lookup_insert_ne. simpl in Hp. lia.
Qed.

Lemma load_store_bytes bs : forall (m : gmap Z Z) addr,
  load_bytes (store_bytes m addr bs) addr (length bs) = Some bs.
Proof.
  induction bs as [|v bs IH]; intros m addr; simpl; [reflexivity|].
  rewrite store_bytes_outside by lia.
  rewrite lookup_insert_eq. simpl. rewrite IH. reflexivity.
Qed.

Lemma load_bytes_ext len : forall (m1 m2 : gmap Z Z) addr,
  (forall p, addr <= p < addr + Z.of_nat len -> m1 !! p = m2 !! p) ->
  load_bytes m1 addr len = load_bytes m2 addr len.
Proof.
  induction len as [|len IH]; intros m1 m2 addr Hext; simpl; [reflexivity|].
  rewrite (Hext addr) by lia.
  rewrite (IH m1 m2 (addr + 1)) by (intros p Hp; apply Hext; lia).
  reflexivity.
Qed.

Lemma start_id_length : length (id start_data) = 12%nat.
Proof. apply char_array_length. Qed.

(** The stores to [x] and [y] leave the bytes of [id] alone. *)
Lemma load_id_after_store (m : gmap Z Z) addr d :
  length (id d) = 12%nat ->
  load_bytes (store_data_t m addr d) addr 12 = Some (id d).
Proof.
  intros Hlen. unfold store_data_t, offset_id, offset_x, offset_y.
  rewrite (load_bytes_ext 12 _ (store_bytes m (addr + 0) (id d))).
  - rewrite Z.add_0_r, <- Hlen. apply load_store_bytes.
  - intros p Hp. rewrite !store_bytes_outside by (simpl; lia). reflexivity.
Qed.

End CWithStructFacts.

(** ** c-with-struct.c *)

Module CWithStructSpec.
Import CWithStruct.

(** C3: [process] returns 0 for every address and every memory, equal
    results for any two calls whatever they are given, and leaves the
    memory as it was; so does the call made by [_start]. *)
Theorem process_returns_0 (m : gmap Z Z) (data : Z) :
  process m data = (0, m) /\
  (forall (m' : gmap Z Z) (data' : Z),
      fst (process m data) = fst (process m' data')) /\
  fst (_start m data) = 0.
Proof. repeat split. Qed.

(** C5: the array [id] of 12 bytes initialised from the literal
    [Hello world] of 11 characters holds these 11 characters, none of them
    zero, followed by the terminator in its last byte; all 12 bytes have a
    value, in the initialiser and in memory once [_start] has stored the
    record. *)
Theorem id_exactly_filled :
  String.length "Hello world" = 11%nat /\
  id_size = 12%nat /\
  length (id start_data) = 12%nat /\
  id start_data = literal_bytes "Hello world" ++ [0] /\
  take 11 (id start_data) = literal_bytes "Hello world" /\
  Forall (fun v => 0 < v < 256) (take 11 (id start_data)) /\
  id start_data !! 11%nat = Some 0 /\
  forall (m : gmap Z Z) (frame : Z),
    load_bytes (snd (_start m frame)) frame 12
    = Some (literal_bytes "Hello world" ++ [0]).
Proof.
  assert (id start_data = literal_bytes "Hello world" ++ [0]) as Hid.
  { apply CWithStructFacts.char_array_exact. reflexivity. }
  split; [reflexivity|]. split; [reflexivity|].
  split; [apply CWithStructFacts.start_id_length|].
  split; [exact Hid|]. rewrite Hid.
  split; [reflexivity|]. split.
  - simpl. repeat constructor.
  - split; [reflexivity|]. intros m frame. rewrite <- Hid.
    apply CWithStructFacts.load_id_after_store,
      CWithStructFacts.start_id_length.
Qed.

End CWithStructSpec.

(** ** Both files *)

(** Runs of [fib] whatever the slot of [a] held at entry. *)
Module FibonacciEntry.
Import Fibonacci Recurrence.

Lemma passes_entry_with g j :
  let s := Nat.iter j pass (fib_entry_with g) in
  b s = Int.wrap (fst (terms 0 1 j)) /\
  c s = Int.wrap (snd (terms 0 1 j)) /\
  i s = 1 + Z.of_nat j.
Proof.
  induction j as [|j (Hb & Hc & Hi)]; simpl.
  - repeat split.
  - rewrite Hb, Hc, Hi, IntFacts.add_wrap.
    destruct (terms 0 1 j) as [u v]; simpl.
    repeat split. lia.
Qed.

Lemma fib_with_value g fuel n :
  n <= Int.max_signed -> (Z.to_nat (n - 1) <= fuel)%nat ->
  fib_with g fuel n = Done (Int.wrap (unit_seq (Z.max n 1))).
Proof.
  intros Hn Hfuel. unfold fib_with.
  rewrite FibonacciFacts.fib_loop_passes;
    [| assumption
     | rewrite IntFacts.min_signed_eq; simpl; lia
     | exact Hfuel].
  change (i (fib_entry_with g)) with 1.
  destruct (passes_entry_with g (Z.to_nat (n - 1))) as (_ & Hc & _).
  cbv zeta in Hc. cbn [mbind outcome_bind mret outcome_ret]. rewrite Hc.
  do 2 f_equal. unfold unit_seq, nth_term.
  replace (Z.to_nat (Z.max n 1 - 1)) with (Z.to_nat (n - 1)) by lia.
  rewrite RecurrenceFacts.snd_terms, RecurrenceFacts.terms_shift.
  reflexivity.
Qed.

End FibonacciEntry.

Module DeterminismSpec.
Import Fibonacci CWithStruct.

(** C9: both procedures are deterministic.  Two runs of [fib] on the same
    [int] n both return, and return the same value, whatever each of them
    finds in the slot of the uninitialised [a] (nothing at all or any value)
    and whatever budget of at least max(n-1, 0) passes each is given; that
    value is the one [fib n] returns.  Two calls of [process] return the
    same value whatever the memories and the addresses they are given. *)
Theorem runs_agree :
  (forall n g1 g2 fuel1 fuel2,
      Int.in_range n ->
      (Z.to_nat (n - 1) <= fuel1)%nat -> (Z.to_nat (n - 1) <= fuel2)%nat ->
      exists v,
        fib_with g1 fuel1 n = Done v /\ fib_with g2 fuel2 n = Done v /\
        fib n = Done v) /\
  (forall (m1 m2 : gmap Z Z) (data1 data2 : Z),
      fst (process m1 data1) = fst (process m2 data2)).
Proof.
  split.
  - intros n g1 g2 fuel1 fuel2 [_ Hn] H1 H2.
    exists (Int.wrap (Recurrence.unit_seq (Z.max n 1))).
    split; [apply FibonacciEntry.fib_with_value; assumption|].
    split; [apply FibonacciEntry.fib_with_value; assumption|].
    apply FibonacciFacts.fib_value. assumption.
  - intros m1 m2 data1 data2. reflexivity.
Qed.

Lemma runs_agree_witness :
  Int.in_range 9 /\
  (Z.to_nat (9 - 1) <= 8)%nat /\ (Z.to_nat (9 - 1) <= 20)%nat /\
  exists v,
    fib_with None 8 9 = Done v /\ fib_with (Some 12345) 20 9 = Done v /\
    fib 9 = Done v.
Proof.
  assert (Int.in_range 9) as H by (vm_compute; split; discriminate).
  assert (Z.to_nat (9 - 1) <= 8)%nat as H1 by (vm_compute; lia).
  assert (Z.to_nat (9 - 1) <= 20)%nat as H2 by (vm_compute; lia).
  split; [exact H|]. split; [exact H1|]. split; [exact H2|].
  exact (proj1 runs_agree 9 None (Some 12345) 8%nat 20%nat H H1 H2).
Defined.

End DeterminismSpec.

(** * Further properties of the two files *)

(** ** Records in memory *)

Module CWithStructMemory.
Import CWithStruct.

Lemma load_bytes_app len1 : forall (m : gmap Z Z) addr len2 bs1 bs2,
  load_bytes m addr len1 = Some bs1 ->
  load_bytes m (addr + Z.of_nat len1) len2 = Some bs2 ->
  load_bytes m addr (len1 + len2) = Some (bs1 ++ bs2).
Proof.
  induction len1 as [|len1 IH]; intros m addr len2 bs1 bs2 H1 H2.
  - simpl in H1. injection H1 as <-. rewrite Z.add_0_r in H2. exact H2.
  - cbn [load_bytes Nat.add] in H1 |- *.
    destruct (m !! addr) as [v|]; [|discriminate]. cbn in H1 |- *.
    destruct (load_bytes m (addr + 1) len1) as [vs|] eqn:Hvs; [|discriminate].
    cbn in H1. injection H1 as <-.
    replace (addr + Z.of_nat (S len1)) with (addr + 1 + Z.of_nat len1) in H2 by lia.
    rewrite (IH m (addr + 1) len2 vs bs2 Hvs H2). reflexivity.
Qed.

Lemma int_bytes_arith v :
  int_bytes v =
  [ v mod 2 ^ 8; (v / 2 ^ 8) mod 2 ^ 8; (v / 2 ^ 16) mod 2 ^ 8;
    (v / 2 ^ 24) mod 2 ^ 8 ].
Proof.
  unfold int_bytes. change 255 with (Z.ones 8).
  rewrite !Z.land_ones, !Z.shiftr_div_pow2 by lia. reflexivity.
Qed.

Lemma int_bytes_range v : Forall (fun b => 0 <= b < 256) (int_bytes v).
Proof.
  rewrite int_bytes_arith. change (2 ^ 8) with 256.
  repeat constructor; apply Z.mod_pos_bound; lia.
Qed.

(** Four bytes written for an [int] read back as that [int]. *)
Lemma int_of_bytes_int_bytes v :
  Int.in_range v -> int_of_bytes (int_bytes v) = Some v.
Proof.
  intros Hv. rewrite int_bytes_arith. cbn [int_of_bytes]. f_equal.
  unfold Int.in_range in Hv. unfold Int.wrap.
  rewrite IntFacts.min_signed_eq, IntFacts.max_signed_eq in *.
  rewrite IntFacts.modulus_eq.
  change (2 ^ 8) with 256. change (2 ^ 16) with 65536.
  change (2 ^ 24) with 16777216.
  Z.div_mod_to_equations. lia.
Qed.

Lemma load_int_store_int (m : gmap Z Z) addr v :
  Int.in_range v -> load_int (store_bytes m addr (int_bytes v)) addr = Some v.
Proof.
  intros Hv. unfold load_int.
  change 4%nat with (length (int_bytes v)).
  rewrite CWithStructFacts.load_store_bytes. cbn [mbind option_bind].
  apply int_of_bytes_int_bytes. assumption.
Qed.

(** The bytes that hold a record after [store_data_t]. *)
Lemma load_image_after_store (m : gmap Z Z) addr d :
  length (id d) = 12%nat ->
  load_bytes (store_data_t m addr d) addr 20
  = Some (id d ++ int_bytes (x d) ++ int_bytes (y d)).
Proof.
  intros Hlen. change 20%nat with (12 + (4 + 4))%nat.
  apply load_bytes_app;
    [apply CWithStructFacts.load_id_after_store; assumption|].
  apply load_bytes_app.
  - unfold store_data_t, offset_id, offset_x, offset_y.
    rewrite (CWithStructFacts.load_bytes_ext 4 _
               (store_bytes (store_bytes m (addr + 0) (id d)) (addr + 12)
                  (int_bytes (x d)))).
    + change (Z.of_nat 12) with 12.
      apply (CWithStructFacts.load_store_bytes (int_bytes (x d))).
    + intros p Hp.
      rewrite CWithStructFacts.store_bytes_outside by (simpl; lia).
      reflexivity.
  - unfold store_data_t, offset_id, offset_x, offset_y.
    change (addr + Z.of_nat 12 + Z.of_nat 4) with (addr + 12 + 4).
    replace (addr + 12 + 4) with (addr + 16) by lia.
    apply (CWithStructFacts.load_store_bytes (int_bytes (y d))).
Qed.

Lemma store_data_t_outside (m : gmap Z Z) addr d p :
  length (id d) = 12%nat ->
  p < addr \/ addr + 20 <= p ->
  store_data_t m addr d !! p = m !! p.
Proof.
  intros Hlen Hp. unfold store_data_t, offset_id, offset_x, offset_y.
  rewrite !CWithStructFacts.store_bytes_outside
    by (rewrite ?Hlen; simpl; lia).
  reflexivity.
Qed.

Lemma load_data_t_store_data_t (m : gmap Z Z) addr d :
  length (id d) = 12%nat -> Int.in_range (x d) -> Int.in_range (y d) ->
  load_data_t (store_data_t m addr d) addr = Some d.
Proof.
  intros Hlen Hx Hy. unfold load_data_t, offset_id, id_size.
  rewrite Z.add_0_r, CWithStructFacts.load_id_after_store by assumption.
  cbn [mbind option_bind].
  assert (load_int (store_data_t m addr d) (addr + offset_x) = Some (x d)) as ->.
  { unfold load_int, store_data_t, offset_id, offset_x, offset_y.
    rewrite (CWithStructFacts.load_bytes_ext 4 _
               (store_bytes (store_bytes m (addr + 0) (id d)) (addr + 12)
                  (int_bytes (x d)))).
    - apply load_int_store_int. assumption.
    - intros p Hp.
      rewrite CWithStructFacts.store_bytes_outside by (simpl; lia).
      reflexivity. }
  cbn [mbind option_bind].
  assert (load_int (store_data_t m addr d) (addr + offset_y) = Some (y d)) as ->.
  { unfold store_data_t. apply load_int_store_int. assumption. }
  cbn [mbind option_bind]. destruct d; reflexivity.
Qed.

End CWithStructMemory.

(** ** The locals of [fib] *)

Module FibonacciLocals.
Import Fibonacci Recurrence.

(** The run of [fib] in terms of passes from the entry. *)
Lemma fib_run_by_passes fuel n :
  n <= Int.max_signed -> (Z.to_nat (n - 1) <= fuel)%nat ->
  let s := Nat.iter (Z.to_nat (n - 1)) pass fib_entry in
  fib_run fuel n = Done (c s, s).
Proof.
  intros Hn Hfuel. cbv zeta. unfold fib_run.
  rewrite FibonacciFacts.fib_loop_passes
    by (auto using FibonacciFacts.fib_entry_min).
  reflexivity.
Qed.

Lemma fib_by_passes n :
  n <= Int.max_signed ->
  fib n = Done (c (Nat.iter (Z.to_nat (n - 1)) pass fib_entry)).
Proof.
  intros Hn. unfold fib, fib_fuel.
  rewrite fib_run_by_passes by (assumption || lia). reflexivity.
Qed.

Lemma terms_unit_lt j :
  fst (terms 1 1 (S j)) < fst (terms 1 1 (S (S j))).
Proof.
  rewrite (RecurrenceFacts.terms_succ 1 1 (S j)).
  rewrite (RecurrenceFacts.terms_succ 1 1 j). simpl.
  pose proof (RecurrenceFacts.terms_unit_mono j). lia.
Qed.

Lemma unit_seq_strict k1 k2 : 2 <= k1 < k2 -> unit_seq k1 < unit_seq k2.
Proof.
  intros [Hlo Hlt]. unfold unit_seq, nth_term.
  replace (Z.to_nat (k2 - 1))
    with (S (Z.to_nat (k1 - 1)) + Z.to_nat (k2 - k1 - 1))%nat by lia.
  replace (Z.to_nat (k1 - 1)) with (S (Z.to_nat (k1 - 2))) by lia.
  generalize (Z.to_nat (k1 - 2)) as j. generalize (Z.to_nat (k2 - k1 - 1)) as d.
  intros d j. induction d as [|d IH].
  - rewrite Nat.add_0_r. apply terms_unit_lt.
  - replace (S (S j) + S d)%nat with (S (S (S (j + d)))) by lia.
    replace (S (S j) + d)%nat with (S (S (j + d))) in IH by lia.
    pose proof (terms_unit_lt (S (j + d))). lia.
Qed.

End FibonacciLocals.

Module FibonacciExtra.
Import Fibonacci Recurrence.

(** X1: the locals when [fib] returns, for an [int] n >= 2: the counter is n,
    [a] has a value, [c] is the [int] sum of [a] and [b], [b] is what
    [fib (n - 1)] returns and [a] is what [fib (n - 2)] returns (0 when
    n = 2). *)
Theorem fib_final_locals n :
  2 <= n <= Int.max_signed ->
  exists va s,
    fib_run (Z.to_nat n) n = Done (c s, s) /\
    fib n = Done (c s) /\
    i s = n /\
    a s = Some va /\
    c s = Int.add va (b s) /\
    fib (n - 1) = Done (b s) /\
    (3 <= n -> fib (n - 2) = Done va) /\
    (n = 2 -> va = 0).
Proof.
  intros [Hlo Hhi].
  pose proof (FibonacciLocals.fib_run_by_passes (Z.to_nat n) n Hhi
                ltac:(lia)) as Hrun.
  pose proof (FibonacciLocals.fib_by_passes n Hhi) as Hn.
  pose proof (FibonacciLocals.fib_by_passes (n - 1) ltac:(lia)) as Hn1.
  pose proof (FibonacciLocals.fib_by_passes (n - 2) ltac:(lia)) as Hn2.
  cbv zeta in Hrun.
  destruct (FibonacciFacts.passes_entry (Z.to_nat (n - 1 - 1)))
    as (_ & _ & Hi & _). cbv zeta in Hi.
  replace (Z.to_nat (n - 1)) with (S (Z.to_nat (n - 1 - 1))) in Hrun, Hn by lia.
  cbn [Nat.iter nat_rect] in Hrun, Hn.
  set (sj := Nat.iter (Z.to_nat (n - 1 - 1)) pass fib_entry) in *.
  exists (b sj), (pass sj).
  split; [exact Hrun|]. split; [exact Hn|].
  split; [cbn [pass i]; lia|]. split; [reflexivity|]. split; [reflexivity|].
  split; [exact Hn1|]. split.
  - intros H3. rewrite Hn2. subst sj.
    replace (Z.to_nat (n - 1 - 1)) with (S (Z.to_nat (n - 2 - 1))) by lia.
    reflexivity.
  - intros ->. reflexivity.
Qed.

Lemma fib_final_locals_witness :
  2 <= 9 <= Int.max_signed /\
  exists va s,
    fib_run (Z.to_nat 9) 9 = Done (c s, s) /\
    fib 9 = Done (c s) /\
    i s = 9 /\
    a s = Some va /\
    c s = Int.add va (b s) /\
    fib (9 - 1) = Done (b s) /\
    (3 <= 9 -> fib (9 - 2) = Done va) /\
    (9 = 2 -> va = 0).
Proof.
  assert (2 <= 9 <= Int.max_signed) as H by (vm_compute; split; discriminate).
  split; [exact H | exact (fib_final_locals 9 H)].
Defined.

(** X2: on the arguments up to 46, where no addition overflows, [fib] is
    positive and non-decreasing, strictly increasing from the argument 2 on,
    and at most 1836311903; the arguments below 1 are included. *)
Theorem fib_monotone n m :
  n <= m -> m <= 46 ->
  exists v w,
    fib n = Done v /\ fib m = Done w /\
    1 <= v <= w /\ w <= 1836311903 /\
    (2 <= n -> n < m -> v < w).
Proof.
  intros Hnm Hm.
  assert (forall k, k <= 46 -> fib k = Done (unit_seq (Z.max k 1))) as Hfib.
  { intros k Hk.
    rewrite FibonacciFacts.fib_value by (rewrite IntFacts.max_signed_eq; lia).
    rewrite IntFacts.wrap_id; [reflexivity|].
    apply RecurrenceFacts.unit_seq_in_range; lia. }
  exists (unit_seq (Z.max n 1)), (unit_seq (Z.max m 1)).
  split; [apply Hfib; lia|]. split; [apply Hfib; lia|].
  pose proof (RecurrenceFacts.unit_seq_pos (Z.max n 1)).
  pose proof (RecurrenceFacts.unit_seq_mono (Z.max n 1) (Z.max m 1) ltac:(lia)).
  pose proof (RecurrenceFacts.unit_seq_mono (Z.max m 1) 46 ltac:(lia)) as H46.
  rewrite RecurrenceFacts.unit_seq_46 in H46.
  split; [lia|]. split; [lia|].
  intros H2 Hlt. rewrite !Z.max_l by lia.
  apply FibonacciLocals.unit_seq_strict. lia.
Qed.

Lemma fib_monotone_witness :
  -3 <= 46 /\ 46 <= 46 /\
  exists v w,
    fib (-3) = Done v /\ fib 46 = Done w /\
    1 <= v <= w /\ w <= 1836311903 /\
    (2 <= -3 -> -3 < 46 -> v < w).
Proof.
  assert (-3 <= 46) as H1 by lia.
  assert (46 <= 46) as H2 by lia.
  split; [exact H1|]. split; [exact H2 | exact (fib_monotone (-3) 46 H1 H2)].
Defined.

End FibonacciExtra.

Module CWithStructExtra.
Import CWithStruct.

(** X3: a record whose [id] has its 12 bytes and whose [x] and [y] are in
    the range of [int], stored at an address, is read back unchanged from
    that address. *)
Theorem data_t_round_trip (m : gmap Z Z) (addr : Z) (d : data_t) :
  length (id d) = 12%nat -> Int.in_range (x d) -> Int.in_range (y d) ->
  load_data_t (store_data_t m addr d) addr = Some d /\
  load_bytes (store_data_t m addr d) addr 20
  = Some (id d ++ int_bytes (x d) ++ int_bytes (y d)).
Proof.
  intros Hlen Hx Hy. split.
  - apply CWithStructMemory.load_data_t_store_data_t; assumption.
  - apply CWithStructMemory.load_image_after_store; assumption.
Qed.

Lemma data_t_round_trip_witness :
  let d := {| id := [65; 66; 67; 0; 0; 0; 0; 0; 0; 0; 0; 0];
              x := -1; y := 2147483647 |} in
  length (id d) = 12%nat /\ Int.in_range (x d) /\ Int.in_range (y d) /\
  load_data_t (store_data_t ∅ 1024 d) 1024 = Some d /\
  load_bytes (store_data_t ∅ 1024 d) 1024 20
  = Some (id d ++ int_bytes (x d) ++ int_bytes (y d)).
Proof.
  intros d.
  assert (length (id d) = 12%nat) as H1 by reflexivity.
  assert (Int.in_range (x d)) as H2 by (vm_compute; split; discriminate).
  assert (Int.in_range (y d)) as H3 by (vm_compute; split; discriminate).
  split; [exact H1|]. split; [exact H2|]. split; [exact H3|].
  exact (data_t_round_trip ∅ 1024 d H1 H2 H3).
Defined.

(** X4: storing a record changes no byte outside the 20 bytes of the record,
    so a record that lies apart from it reads as before. *)
Theorem store_data_t_apart (m : gmap Z Z) (addr addr' : Z) (d : data_t) :
  length (id d) = 12%nat ->
  addr' + sizeof_data_t <= addr \/ addr + sizeof_data_t <= addr' ->
  (forall p, p < addr \/ addr + sizeof_data_t <= p ->
             store_data_t m addr d !! p = m !! p) /\
  load_data_t (store_data_t m addr d) addr' = load_data_t m addr'.
Proof.
  unfold sizeof_data_t. intros Hlen Hapart. split.
  - intros p Hp. apply CWithStructMemory.store_data_t_outside; assumption.
  - unfold load_data_t, load_int, offset_id, offset_x, offset_y, id_size.
    rewrite (CWithStructFacts.load_bytes_ext 12 (store_data_t m addr d) m),
      (CWithStructFacts.load_bytes_ext 4 (store_data_t m addr d) m (addr' + 12)),
      (CWithStructFacts.load_bytes_ext 4 (store_data_t m addr d) m (addr' + 16));
      [reflexivity | | | ];
      intros p Hp; apply CWithStructMemory.store_data_t_outside;
      (assumption || lia).
Qed.

Lemma store_data_t_apart_witness :
  length (id start_data) = 12%nat /\
  (1004 + sizeof_data_t <= 1024 \/ 1024 + sizeof_data_t <= 1004) /\
  (forall p, p < 1024 \/ 1024 + sizeof_data_t <= p ->
             store_data_t ∅ 1024 start_data !! p = (∅ : gmap Z Z) !! p) /\
  load_data_t (store_data_t ∅ 1024 start_data) 1004 = load_data_t ∅ 1004.
Proof.
  assert (length (id start_data) = 12%nat) as H1 by reflexivity.
  assert (1004 + sizeof_data_t <= 1024 \/ 1024 + sizeof_data_t <= 1004) as H2
    by (left; vm_compute; discriminate).
  split; [exact H1|]. split; [exact H2|].
  exact (store_data_t_apart ∅ 1024 1004 start_data H1 H2).
Defined.

(** X5: at the call of [process] made by [_start], whatever the memory and
    the address of [data] were, the record read through the pointer passed
    is id = [Hello world] with its terminator, x = 12 and y = 34. *)
Theorem start_breakpoint_view (m : gmap Z Z) (frame : Z) :
  load_data_t (snd (_start m frame)) frame
  = Some {| id := literal_bytes "Hello world" ++ [0]; x := 12; y := 34 |} /\
  load_int (snd (_start m frame)) (frame + offset_x) = Some 12 /\
  load_int (snd (_start m frame)) (frame + offset_y) = Some 34.
Proof.
  assert (Int.in_range 12 /\ Int.in_range 34) as [H12 H34]
    by (vm_compute; repeat split; discriminate).
  pose proof (CWithStructMemory.load_data_t_store_data_t m frame start_data
                CWithStructFacts.start_id_length H12 H34) as Hload.
  change (snd (_start m frame)) with (store_data_t m frame start_data).
  split; [exact Hload|].
  unfold load_data_t in Hload.
  destruct (load_bytes (store_data_t m frame start_data) (frame + offset_id)
              id_size) as [bs|]; [|discriminate].
  cbn [mbind option_bind] in Hload.
  destruct (load_int (store_data_t m frame start_data) (frame + offset_x))
    as [vx|]; [|discriminate].
  cbn [mbind option_bind] in Hload.
  destruct (load_int (store_data_t m frame start_data) (frame + offset_y))
    as [vy|]; [|discriminate].
  cbn [mbind option_bind] in Hload. injection Hload as _ -> ->.
  split; reflexivity.
Qed.

(** X6: a literal shorter than the array it initialises leaves the array
    with its declared size, the characters of the literal in front and zero
    in every element after them, the last one included. *)
Theorem char_array_terminated (size : nat) (lit : string) :
  (String.length lit < size)%nat ->
  length (char_array size lit) = size /\
  take (String.length lit) (char_array size lit) = literal_bytes lit /\
  (forall k, (String.length lit <= k < size)%nat ->
             char_array size lit !! k = Some 0) /\
  char_array size lit !! (size - 1)%nat = Some 0.
Proof.
  intros Hlt.
  assert (char_array size lit
          = literal_bytes lit ++ replicate (size - String.length lit) 0) as Hca.
  { unfold char_array. apply take_ge.
    rewrite length_app, length_replicate,
      CWithStructFacts.literal_bytes_length. lia. }
  assert (forall k, (String.length lit <= k < size)%nat ->
                    char_array size lit !! k = Some 0) as Hzero.
  { intros k Hk. rewrite Hca.
    rewrite lookup_app_r
      by (rewrite CWithStructFacts.literal_bytes_length; lia).
    apply lookup_replicate_2.
    rewrite CWithStructFacts.literal_bytes_length. lia. }
  split; [apply CWithStructFacts.char_array_length|]. split; [|split].
  - rewrite Hca, take_app_length'
      by (symmetry; apply CWithStructFacts.literal_bytes_length).
    reflexivity.
  - exact Hzero.
  - apply Hzero. lia.
Qed.

Lemma char_array_terminated_witness :
  (String.length "Hi" < 12)%nat /\
  length (char_array 12 "Hi") = 12%nat /\
  take (String.length "Hi") (char_array 12 "Hi") = literal_bytes "Hi" /\
  (forall k, (String.length "Hi" <= k < 12)%nat ->
             char_array 12 "Hi" !! k = Some 0) /\
  char_array 12 "Hi" !! (12 - 1)%nat = Some 0.
Proof.
  assert (String.length "Hi" < 12)%nat as H by (vm_compute; lia).
  split; [exact H | exact (char_array_terminated 12 "Hi" H)].
Defined.

End CWithStructExtra.
